(** * The SQS event source of service-template-golang (consumer/consumer.go)

    A shallow embedding of [SQSSource]: its per-message pipeline
    ([processMessage], [insertMessage]), its acknowledgment entry point
    ([Processed]), its shutdown ([Close]) and the polling goroutine started by
    [Consume], followed by the properties of the consume / persist / dispatch /
    acknowledge discipline.

    Go pointers are [option] values ([None] is the nil pointer), a
    dereference of nil is a panic, and the packages the file imports are
    name spaces ([sqs], [domain], [entity]).  The collaborators whose code is
    not in consumer.go (the queue client, the database client, the JSON decoder
    and the clock) act on an abstract [World]. *)

From stdpp Require Import gmap strings list.
From Stdlib Require Import ZArith Lia Ascii.

Local Open Scope string_scope.
Local Open Scope list_scope.
Local Open Scope Z_scope.

(** Go [error] values, identified with their message; [None] is the nil error. *)
Definition error := string.

(** ** Imported data types *)

Module sqs.
(** [sqs.Message] of the AWS SDK: every field is a pointer, [Attributes] is a
    [map[string]*string]. *)
Record Message := mkMessage {
  Body : option string;
  MessageId : option string;
  ReceiptHandle : option string;
  Attributes : gmap string (option string);
}.

(** [sqs.MessageSystemAttributeNameApproximateReceiveCount] *)
Definition MessageSystemAttributeNameApproximateReceiveCount : string :=
  "ApproximateReceiveCount".
End sqs.

(** [*zap.SugaredLogger]: a logger is the list of key / value pairs attached to
    it by [With]. *)
Record Logger := mkLogger { fields : list (string * string) }.

Definition With (l : Logger) (key value : string) : Logger :=
  {| fields := fields l ++ [(key, value)] |}.

(** The dynamic type and value held by an [interface{}]. *)
Inductive any :=
| AnyNil
| AnySqsMessage (m : option sqs.Message)
| AnyOther (type_name : string).

Module domain.
(** [domain.Events], the decoded payload.  Its declaration is not part of
    consumer.go; the pipeline reads the field [Message] only. *)
Record Events := mkEvents { Message : string }.

(** [domain.Event], as consumer.go fills it. *)
Record Event := mkEvent {
  ID : string;
  Retry : string;
  Records : Events;
  OriginalEvent : any;
  Log : Logger;
}.
End domain.

Module entity.
(** [entity.Events], the row written to the database. *)
Record Events := mkEvents {
  ID : string;
  Message : string;
  Date : string;
}.
End entity.

(** ** Panics and results *)

Inductive panic :=
| NilDereference          (* invalid memory address or nil pointer dereference *)
| NegativeCounter         (* sync: negative WaitGroup counter *)
| MakeChanSize.           (* makechan: size out of range *)

Inductive result (A : Type) :=
| Ok (a : A)
| Panic (p : panic).
Arguments Ok {A} a.
Arguments Panic {A} p.

(** ** Observable effects

    Every call that leaves the consumer is recorded, newest first, in a trace. *)

Inductive Level := Debug | Info | Warn | Error.

Inductive Effect :=
| ELog (lvl : Level) (logger : Logger) (format : string) (args : list string)
| EGetMessages (n : nat) (err : option error)   (* s.sqs.GetMessages() *)
| ECreate (row : entity.Events) (err : option error) (* the upsert *)
| ERollback
| EAdd (delta : Z)                              (* s.wg.Add(delta) *)
| EDone                                         (* s.wg.Done() *)
| ESend (ev : domain.Event)                     (* out <- event completed *)
| EDeleteMessage (m : option sqs.Message) (err : option error)
| ECloseChan.                                   (* close(out) *)

Section Consumer.

(** The state of the collaborators: the queue service, the database, the
    clock. *)
Context {World : Type}.

(** [awssqs.ClientSQS]: the two methods consumer.go calls. *)
Record ClientSQS := mkClientSQS {
  GetMessages : World -> (list (option sqs.Message) * option error) * World;
  DeleteMessage : option sqs.Message -> World -> option error * World;
}.

(** [database.ClientDB]: [Create] stands for
    [DB.Clauses(clause.OnConflict{UpdateAll: true}).Create], [Rollback] for
    the [Rollback] of its result. *)
Record ClientDB := mkClientDB {
  Create : entity.Events -> World -> option error * World;
  Rollback : World -> World;
}.

(** [json.Unmarshal] into a [domain.Events], and [time.Now().String()]. *)
Variable json_Unmarshal : string -> domain.Events + error.
Variable time_Now : World -> string.

(** The struct [SQSSource]; [wg] is the counter of the [sync.WaitGroup]. *)
Record SQSSource := mkSQSSource {
  sqs : ClientSQS;
  log : Logger;
  maxMessages : Z;
  closed : bool;
  db : ClientDB;
  wg : Z;
}.

Record State := mkState {
  self : SQSSource;
  world : World;
  trace : list Effect;
}.

(** [New]: the constructor leaves [closed] false and the counter at zero. *)
Definition New (sqsClient : ClientSQS) (logger : Logger) (maxMessages : Z)
    (db : ClientDB) : SQSSource * option error :=
  ({| sqs := sqsClient; log := logger; maxMessages := maxMessages;
      closed := false; db := db; wg := 0 |}, None).

(** *** The monad of methods: state passing with panics *)

Definition M (A : Type) : Type := State -> result A * State.

Definition ret {A} (a : A) : M A := fun st => (Ok a, st).

Definition bind {A B} (m : M A) (k : A -> M B) : M B :=
  fun st =>
    match m st with
    | (Ok a, st') => k a st'
    | (Panic p, st') => (Panic p, st')
    end.

Notation "'let*' x ':=' m 'in' k" := (bind m (fun x => k))
  (at level 10, x name, m at level 100, k at level 200, only parsing).
Notation "m ';;' k" := (bind m (fun _ => k))
  (at level 100, k at level 200, right associativity, only parsing).

Definition throw {A} (p : panic) : M A := fun st => (Panic p, st).

(** [*p] *)
Definition deref {A} (p : option A) : M A :=
  match p with
  | Some a => ret a
  | None => throw NilDereference
  end.

Definition get_self : M SQSSource := fun st => (Ok (self st), st).

Definition emit (e : Effect) : M unit :=
  fun st => (Ok tt, {| self := self st; world := world st; trace := e :: trace st |}).

Definition set_wg (n : Z) : M unit :=
  fun st => (Ok tt,
    {| self := {| sqs := sqs (self st); log := log (self st);
                  maxMessages := maxMessages (self st);
                  closed := closed (self st); db := db (self st); wg := n |};
       world := world st; trace := trace st |}).

Definition set_closed (b : bool) : M unit :=
  fun st => (Ok tt,
    {| self := {| sqs := sqs (self st); log := log (self st);
                  maxMessages := maxMessages (self st);
                  closed := b; db := db (self st); wg := wg (self st) |};
       world := world st; trace := trace st |}).

(** A call into a collaborator: it reads and writes the world. *)
Definition call {A} (f : World -> A * World) : M A :=
  fun st => let '(a, w) := f (world st) in
            (Ok a, {| self := self st; world := w; trace := trace st |}).

Definition logf (lvl : Level) (logger : Logger) (format : string)
    (args : list string) : M unit :=
  emit (ELog lvl logger format args).

(** *** [sync.WaitGroup] *)

(** [wg.Add(delta)]: the counter is updated first, a negative counter then
    panics. *)
Definition wg_Add (delta : Z) : M unit :=
  let* s := get_self in
  set_wg (wg s + delta) ;;
  emit (EAdd delta) ;;
  if wg s + delta <? 0 then throw NegativeCounter else ret tt.

(** [wg.Done()] is [wg.Add(-1)]. *)
Definition wg_Done : M unit :=
  let* s := get_self in
  set_wg (wg s - 1) ;;
  emit EDone ;;
  if wg s - 1 <? 0 then throw NegativeCounter else ret tt.

(** [wg.Wait()] returns when the counter is zero and blocks otherwise. *)
Definition wg_Wait_ready (st : State) : bool := wg (self st) =? 0.

(** [defer f] around a body: [f] runs when the body returns and when it
    panics; a panic of [f] replaces the body's outcome. *)
Definition defer {A} (f : M unit) (body : M A) : M A :=
  fun st =>
    let '(r, st1) := body st in
    match f st1 with
    | (Ok _, st2) => (r, st2)
    | (Panic p, st2) => (Panic p, st2)
    end.

(** *** [insertMessage] (lines 104-113) *)
Definition insertMessage (events : entity.Events) : M (option error) :=
  let* s := get_self in
  let* r_Error := call (Create (db s) events) in
  emit (ECreate events r_Error) ;;
  match r_Error with
  | Some e =>
      call (fun w => (tt, Rollback (db s) w)) ;;
      emit ERollback ;;
      ret (Some e)
  | None => ret None
  end.

(** *** [processMessage] (lines 65-101)

    Lines 66-99 run without blocking.  Line 100, [out <- event], may block
    on the channel: [processMessage] returns the event staged for that send
    ([None] after the early return of line 70) and the polling loop below
    performs the send when the channel accepts it. *)
Definition processMessage (msg : option sqs.Message) : M (option domain.Event) :=
  let* s := get_self in
  let* m := deref msg in
  let* body := deref (sqs.Body m) in
  match json_Unmarshal body with
  | inr err =>
      logf Error (log s) "Error processing message from SQS: %v" [err] ;;
      ret None
  | inl records =>
      let* retry :=
        match sqs.Attributes m !! sqs.MessageSystemAttributeNameApproximateReceiveCount with
        | Some val => deref val
        | None => ret "0"
        end in
      let logger := With (log s) "retry" retry in
      logf Info logger "Start to process SQS event" [] ;;
      let* id := deref (sqs.MessageId m) in
      let* now := call (fun w => (time_Now w, w)) in
      let eventDB := {| entity.ID := id;
                        entity.Message := domain.Message records;
                        entity.Date := now |} in
      let* err := insertMessage eventDB in
      match err with
      | Some e => logf Info logger "error in insertMessage: %v" [e]
      | None => ret tt
      end ;;
      let* id' := deref (sqs.MessageId m) in
      let event := {| domain.ID := id';
                      domain.Retry := retry;
                      domain.Records := records;
                      domain.OriginalEvent := AnySqsMessage msg;
                      domain.Log := log s |} in
      wg_Add 1 ;;
      logf Info logger "Event produced for ID = %s)" [domain.ID event] ;;
      ret (Some event)
  end.

(** *** [Processed] (lines 116-130) *)
Definition Processed_body (event : option domain.Event) : M (option error) :=
  let* s := get_self in
  let* ev := deref event in
  let logger := domain.Log ev in
  match domain.OriginalEvent ev with
  | AnySqsMessage events =>
      let* err := call (DeleteMessage (sqs s) events) in
      emit (EDeleteMessage events err) ;;
      match err with
      | Some e =>
          logf Error logger "error deleting of sqs message. %v" [e] ;;
          ret (Some e)
      | None =>
          logf Info logger "successful deleted sqs message" [] ;;
          ret None
      end
  | _ =>
      logf Warn logger "event isn't sqs message" [] ;;
      ret None
  end.

Definition Processed (event : option domain.Event) : M (option error) :=
  defer wg_Done (Processed_body event).

(** *** [Close] (lines 133-137)

    Line 134 sets the flag; line 135 blocks in [wg.Wait()]; line 136 returns
    nil.  [Close_enter] is line 134, [Close_return] the value of line 136, and
    [Close] the whole call when no other goroutine runs in between: [None]
    means that the call stays blocked in [Wait]. *)
Definition Close_enter : M unit := set_closed true.

Definition Close_return : option error := None.

Definition Close (st : State) : option (result (option error) * State) :=
  match Close_enter st with
  | (Ok _, st1) =>
      if wg_Wait_ready st1 then Some (Ok Close_return, st1) else None
  | (Panic p, st1) => Some (Panic p, st1)
  end.

(** *** [Consume] (lines 38-62) and its goroutine

    The goroutine is a control point ([LoopPc]) over the shared [State] and
    the channel [out]; each step of [loop_step] runs from one access of
    shared state to the next. *)
Inductive LoopPc :=
| LTop                                     (* line 42: if s.closed *)
| LPoll                                    (* line 45: s.sqs.GetMessages() *)
| LBatch (rest : list (option sqs.Message)) (* line 53: range over the batch *)
| LSend (ev : domain.Event) (rest : list (option sqs.Message)) (* line 100 *)
| LWait                                    (* line 56: s.wg.Wait() *)
| LCloseOut                                (* line 58: close(out) *)
| LExit.

Record System := mkSystem {
  st : State;
  pc : LoopPc;
  out : list domain.Event;        (* the buffer of the channel, oldest first *)
  out_closed : bool;
  received : list domain.Event;   (* taken by downstream readers, newest first *)
  closing : nat;                  (* calls of Close blocked in wg.Wait() *)
  close_returned : list (option error); (* values of the returned Close calls *)
  crashed : option panic;         (* a goroutine panicked: the process is gone *)
}.

Definition update (y : System) (st' : State) (pc' : LoopPc) : System :=
  {| st := st'; pc := pc'; out := out y; out_closed := out_closed y;
     received := received y; closing := closing y;
     close_returned := close_returned y; crashed := crashed y |}.

Definition crash (y : System) (st' : State) (p : panic) : System :=
  {| st := st'; pc := pc y; out := out y; out_closed := out_closed y;
     received := received y; closing := closing y;
     close_returned := close_returned y; crashed := Some p |}.

(** [make(chan *domain.Event, s.maxMessages)] panics on a negative size;
    otherwise the goroutine starts at the top of its loop. *)
Definition Consume (st0 : State) : result System :=
  if maxMessages (self st0) <? 0 then Panic MakeChanSize
  else Ok {| st := st0; pc := LTop; out := []; out_closed := false;
             received := []; closing := 0%nat; close_returned := [];
             crashed := None |}.

(** Lines 45-52: one poll and its logging; [None] is the [continue] of
    line 48. *)
Definition Consume_poll : M (option (list (option sqs.Message))) :=
  let* s := get_self in
  let* r := call (GetMessages (sqs s)) in
  emit (EGetMessages (length (fst r)) (snd r)) ;;
  match snd r with
  | Some err =>
      logf Error (log s) "Error getting messages from SQS: %v" [err] ;;
      ret None
  | None =>
      (if (length (fst r) =? 0)%nat
       then logf Debug (log s) "No messages found from SQS" []
       else ret tt) ;;
      ret (Some (fst r))
  end.

(** [out <- event] on a channel of capacity [maxMessages]: it completes when
    the buffer has room and blocks ([None]) otherwise. *)
Definition chan_send (cap : Z) (buf : list domain.Event) (ev : domain.Event)
    : option (list domain.Event) :=
  if Z.of_nat (length buf) <? cap then Some (buf ++ [ev]) else None.

Definition loop_step (y : System) : option System :=
  match pc y with
  | LTop =>
      Some (update y (st y) (if closed (self (st y)) then LCloseOut else LPoll))
  | LPoll =>
      match Consume_poll (st y) with
      | (Ok None, st') => Some (update y st' LTop)
      | (Ok (Some messages), st') => Some (update y st' (LBatch messages))
      | (Panic p, st') => Some (crash y st' p)
      end
  | LBatch [] => Some (update y (st y) LWait)
  | LBatch (msg :: rest) =>
      match processMessage msg (st y) with
      | (Ok None, st') => Some (update y st' (LBatch rest))
      | (Ok (Some ev), st') => Some (update y st' (LSend ev rest))
      | (Panic p, st') => Some (crash y st' p)
      end
  | LSend ev rest =>
      match chan_send (maxMessages (self (st y))) (out y) ev with
      | Some buf =>
          match emit (ESend ev) (st y) with
          | (_, st') =>
              Some {| st := st'; pc := LBatch rest; out := buf;
                      out_closed := out_closed y; received := received y;
                      closing := closing y;
                      close_returned := close_returned y;
                      crashed := crashed y |}
          end
      | None => None
      end
  | LWait => if wg_Wait_ready (st y) then Some (update y (st y) LTop) else None
  | LCloseOut =>
      match emit ECloseChan (st y) with
      | (_, st') =>
          Some {| st := st'; pc := LExit; out := out y; out_closed := true;
                  received := received y; closing := closing y;
                  close_returned := close_returned y; crashed := crashed y |}
      end
  | LExit => None
  end.

(** The other goroutines: downstream readers of [out], callers of
    [Processed] (with any argument) and callers of [Close]. *)
Inductive label :=
| Loop                                  (* the goroutine of Consume *)
| Recv                                  (* <-out takes the oldest buffered event *)
| Handoff                               (* a blocked sender meets a waiting reader *)
| Ack (event : option domain.Event)     (* s.Processed(event) *)
| CloseCall                             (* s.Close() runs line 134 *)
| CloseReturn.                          (* a blocked Close leaves wg.Wait() *)

Definition step_fn (l : label) (y : System) : option System :=
  match l with
  | Loop => loop_step y
  | Recv =>
      match out y with
      | ev :: buf =>
          Some {| st := st y; pc := pc y; out := buf;
                  out_closed := out_closed y; received := ev :: received y;
                  closing := closing y; close_returned := close_returned y;
                  crashed := crashed y |}
      | [] => None
      end
  | Handoff =>
      match pc y, out y with
      | LSend ev rest, [] =>
          match emit (ESend ev) (st y) with
          | (_, st') =>
              Some {| st := st'; pc := LBatch rest; out := [];
                      out_closed := out_closed y; received := ev :: received y;
                      closing := closing y;
                      close_returned := close_returned y;
                      crashed := crashed y |}
          end
      | _, _ => None
      end
  | Ack event =>
      match Processed event (st y) with
      | (Ok _, st') => Some (update y st' (pc y))
      | (Panic p, st') => Some (crash y st' p)
      end
  | CloseCall =>
      match Close_enter (st y) with
      | (_, st') =>
          Some {| st := st'; pc := pc y; out := out y;
                  out_closed := out_closed y; received := received y;
                  closing := S (closing y);
                  close_returned := close_returned y; crashed := crashed y |}
      end
  | CloseReturn =>
      match closing y with
      | S n =>
          if wg_Wait_ready (st y)
          then Some {| st := st y; pc := pc y; out := out y;
                       out_closed := out_closed y; received := received y;
                       closing := n;
                       close_returned := Close_return :: close_returned y;
                       crashed := crashed y |}
          else None
      | O => None
      end
  end.

(** A goroutine moves only while the process is alive. *)
Definition step (l : label) (y y' : System) : Prop :=
  crashed y = None /\ step_fn l y = Some y'.

Inductive reachable (y0 : System) : System -> Prop :=
| reachable_start : reachable y0 y0
| reachable_step l y y' : reachable y0 y -> step l y y' -> reachable y0 y'.

(** The state in which [Consume] is called on a consumer fresh from [New]. *)
Definition fresh (sqsClient : ClientSQS) (logger : Logger) (maxMessages : Z)
    (db : ClientDB) (w : World) : State :=
  {| self := fst (New sqsClient logger maxMessages db); world := w; trace := [] |}.

Definition started (y0 : System) : Prop :=
  exists sqsClient logger maxMessages db w,
    Consume (fresh sqsClient logger maxMessages db w) = Ok y0.

End Consumer.

(** ** The queue client's contract *)

(** Modelled from the spec: the deletion method of the queue client (package
    clients/awssqs, whose code is not in consumer.go).  The spec gives
    [deleteMessage(handle) -> error]: the client "deletes a message by handle",
    and after a failed deletion the "message remains on the queue".  [pending]
    reads the messages held by the queue out of the world. *)
Definition deletes_by_handle {World : Type}
    (pending : World -> list sqs.Message) (c : @ClientSQS World) : Prop :=
  forall m w err w',
    DeleteMessage c (Some m) w = (err, w') ->
    match err with
    | None =>
        pending w' =
        filter (fun x => sqs.ReceiptHandle x <> sqs.ReceiptHandle m) (pending w)
    | Some _ => pending w' = pending w
    end.

(** ** Reading a state and a trace *)

(** The fields of [SQSSource] that are set by [New] and never written again. *)
Definition same_config {World : Type} (s s' : @SQSSource World) : Prop :=
  sqs s' = sqs s /\ log s' = log s /\ maxMessages s' = maxMessages s /\
  db s' = db s.

(** The row lines 81-85 build, and the event lines 91-97 build. *)
Definition event_row (id : string) (records : domain.Events) (now : string)
    : entity.Events :=
  {| entity.ID := id; entity.Message := domain.Message records;
     entity.Date := now |}.

Definition event_of {World : Type} (s : @SQSSource World) (m : sqs.Message)
    (id retry : string) (records : domain.Events) : domain.Event :=
  {| domain.ID := id; domain.Retry := retry; domain.Records := records;
     domain.OriginalEvent := AnySqsMessage (Some m); domain.Log := log s |}.

(** What lines 72-76 leave in [retry]; [None] when the attribute is present
    with a nil value. *)
Definition retry_of (m : sqs.Message) : option string :=
  match sqs.Attributes m !! sqs.MessageSystemAttributeNameApproximateReceiveCount with
  | Some val => val
  | None => Some "0"
  end.

(** Calls of [wg.Add], calls of [wg.Done] and completed sends in a trace. *)
Fixpoint increments (tr : list Effect) : Z :=
  match tr with
  | [] => 0
  | EAdd _ :: older => 1 + increments older
  | _ :: older => increments older
  end.

Fixpoint releases (tr : list Effect) : Z :=
  match tr with
  | [] => 0
  | EDone :: older => 1 + releases older
  | _ :: older => releases older
  end.

Fixpoint emitted (tr : list Effect) : Z :=
  match tr with
  | [] => 0
  | ESend _ :: older => 1 + emitted older
  | _ :: older => emitted older
  end.

(** Calls of [GetMessages] in a trace. *)
Fixpoint polls (tr : list Effect) : Z :=
  match tr with
  | [] => 0
  | EGetMessages _ _ :: older => 1 + polls older
  | _ :: older => polls older
  end.

(** The upsert of the record of [ev] was attempted somewhere in [tr]. *)
Definition persisted (ev : domain.Event) (tr : list Effect) : Prop :=
  exists row err,
    In (ECreate row err) tr /\
    entity.ID row = domain.ID ev /\
    entity.Message row = domain.Message (domain.Records ev).

(** Every send in the trace (newest first) has the upsert of its record among
    the older effects. *)
Fixpoint persist_before_emit (tr : list Effect) : Prop :=
  match tr with
  | [] => True
  | ESend ev :: older => persisted ev older /\ persist_before_emit older
  | _ :: older => persist_before_emit older
  end.

Definition sending (pc : LoopPc) : bool :=
  match pc with LSend _ _ => true | _ => false end.

(** One when the goroutine holds an event it has counted and not yet sent. *)
Definition staged (pc : LoopPc) : Z := if sending pc then 1 else 0.

(** The control points between two batches. *)
Definition between_batches (pc : LoopPc) : bool :=
  match pc with
  | LTop | LPoll | LCloseOut | LExit => true
  | _ => false
  end.

(** Running a schedule: the goroutines named by the labels move in turn. *)
Fixpoint run_schedule {World : Type}
    (json_Unmarshal : string -> domain.Events + error)
    (time_Now : World -> string)
    (ls : list label) (y : @System World) : option (@System World) :=
  match ls with
  | [] => Some y
  | l :: ls' =>
      match crashed y with
      | Some _ => None
      | None =>
          match step_fn json_Unmarshal time_Now l y with
          | Some y' => run_schedule json_Unmarshal time_Now ls' y'
          | None => None
          end
      end
  end.

Ltac run :=
  cbv [processMessage insertMessage Processed Processed_body defer wg_Add
       wg_Done logf emit call deref throw ret bind get_self set_wg set_closed
       Consume_poll Close Close_enter wg_Wait_ready];
  cbn [self world trace sqs log maxMessages closed db wg fst snd].

Ltac unfold_loop := unfold loop_step.

Ltac settle :=
  cbn [staged sending between_batches st pc crashed close_returned update
       crash] in *;
  repeat split; try tauto; try lia; try discriminate;
  try (intros; congruence).

(** What every state of a run satisfies (proved below): the counter is the
    balance of the trace, sends follow their upsert, every returned [Close]
    returned nil and, while the process is alive, the counter is not negative,
    every increment has its send (or is staged for it) and the counter is zero
    between two batches. *)
Definition invariant {World : Type} (y : @System World) : Prop :=
  let tr := trace (st y) in
  let counter := wg (self (st y)) in
  counter = increments tr - releases tr /\
  persist_before_emit tr /\
  (forall ev rest, pc y = LSend ev rest -> persisted ev tr) /\
  (forall r, In r (close_returned y) -> r = None) /\
  (crashed y = None ->
   0 <= counter /\
   increments tr = emitted tr + staged (pc y) /\
   (between_batches (pc y) = true -> counter = 0)).

(** ** A concrete world, used to run the consumer on examples *)

Module Demo.

Record World := mkWorld {
  pending : list sqs.Message;             (* messages held by the queue *)
  rows : gmap string entity.Events;       (* the events table, keyed by ID *)
  clock : string;
  sqs_outage : option error;              (* the queue service fails with it *)
  db_outage : option error;               (* the database fails with it *)
}.

(** Modelled from the spec: a queue client that "fetches a bounded batch of
    pending messages" and "deletes a message by handle" (package
    clients/awssqs is not in consumer.go); during an outage both calls
    return the error and change nothing. *)
Definition client_sqs : @ClientSQS World :=
  {| GetMessages w :=
       match sqs_outage w with
       | Some e => (([], Some e), w)
       | None => ((map Some (pending w), None), w)
       end;
     DeleteMessage m w :=
       match sqs_outage w, m with
       | Some e, _ => (Some e, w)
       | None, None => (Some "nil message", w)
       | None, Some m =>
           (None,
            {| pending :=
                 filter (fun x => sqs.ReceiptHandle x <> sqs.ReceiptHandle m)
                        (pending w);
               rows := rows w; clock := clock w;
               sqs_outage := sqs_outage w; db_outage := db_outage w |})
       end |}.

(** Modelled from the spec: the event record store, an "upsert(id, payload,
    timestamp) -> error" with "overwrite-on-conflict semantics keyed by id"
    (package database is not in consumer.go). *)
Definition client_db : @ClientDB World :=
  {| Create row w :=
       match db_outage w with
       | Some e => (Some e, w)
       | None =>
           (None,
            {| pending := pending w;
               rows := <[entity.ID row := row]> (rows w);
               clock := clock w;
               sqs_outage := sqs_outage w; db_outage := db_outage w |})
       end;
     Rollback w := w |}.

(** A stand-in for the JSON decoder: a body decodes when it opens an
    object. *)
Definition json_Unmarshal (body : string) : domain.Events + error :=
  match body with
  | String "{"%char _ => inl {| domain.Message := body |}
  | _ => inr "invalid character looking for beginning of value"
  end.

Definition time_Now (w : World) : string := clock w.

Definition logger : Logger := {| fields := [] |}.

Definition message (id body : string) (attrs : gmap string (option string))
    : sqs.Message :=
  {| sqs.Body := Some body; sqs.MessageId := Some id;
     sqs.ReceiptHandle := Some ("handle-" ++ id)%string;
     sqs.Attributes := attrs |}.

Definition m1 : sqs.Message := message "m1" "{Message:a}" ∅.
Definition m2 : sqs.Message :=
  message "m2" "{Message:b}"
    {[ sqs.MessageSystemAttributeNameApproximateReceiveCount := Some "4" ]}.
Definition broken : sqs.Message := message "m3" "not json" ∅.

Definition world0 : World :=
  {| pending := [m1; m2]; rows := ∅; clock := "2024-01-01 00:00:00";
     sqs_outage := None; db_outage := None |}.

Definition world_db_down : World :=
  {| pending := [m1; m2]; rows := ∅; clock := "2024-01-01 00:00:00";
     sqs_outage := None; db_outage := Some "connection refused" |}.

Definition world_sqs_down : World :=
  {| pending := [m1; m2]; rows := ∅; clock := "2024-01-01 00:00:00";
     sqs_outage := Some "request timeout"; db_outage := None |}.

(** A consumer fresh from [New], and the same with [k] events in flight. *)
Definition st0 : @State World := fresh client_sqs logger 10 client_db world0.

Definition in_flight (k : Z) (w : World) : @State World :=
  {| self := {| sqs := client_sqs; log := logger; maxMessages := 10;
                closed := false; db := client_db; wg := k |};
     world := w; trace := [] |}.

(** The system [Consume] starts on [st0]. *)
Definition y0 : @System World :=
  {| st := st0; pc := LTop; out := []; out_closed := false; received := [];
     closing := 0%nat; close_returned := []; crashed := None |}.

(** The events the pipeline builds for [m1] and [m2]. *)
Definition e1 : domain.Event :=
  event_of (self st0) m1 "m1" "0" {| domain.Message := "{Message:a}" |}.
Definition e2 : domain.Event :=
  event_of (self st0) m2 "m2" "4" {| domain.Message := "{Message:b}" |}.

(** The state a schedule leads to from [y0] ([y0] itself when the schedule
    cannot run). *)
Definition after (ls : list label) : @System World :=
  match run_schedule json_Unmarshal time_Now ls y0 with
  | Some y => y
  | None => y0
  end.

(** The loop has polled [m1; m2], processed and sent both: two events are
    in flight. *)
Definition both_sent : @System World :=
  after [Loop; Loop; Loop; Loop; Loop; Loop].

(** [e1] acknowledged once, then a second time. *)
Definition acked_once : @State World :=
  snd (Processed (Some e1) (st both_sent)).
Definition acked_twice : @State World :=
  snd (Processed (Some e1) acked_once).

(** [Close] is called and returns while the loop is between its test of
    [closed] and its poll; the loop then polls and sends the first event. *)
Definition closed_early : @System World :=
  after [Loop; CloseCall; CloseReturn; Loop; Loop; Loop].


End Demo.

(** ** Properties of the methods *)

(** *** Footprints: what a call may change *)

Section Footprints.

Context {World : Type}.

Implicit Types (st : @State World).

Lemma persisted_cons ev e tr : persisted ev tr -> persisted ev (e :: tr).
Proof.
  intros (row & err & Hin & Hid & Hmsg).
  exists row, err. split; [right; exact Hin | split; assumption].
Qed.

Lemma persisted_here ev row err tr :
  entity.ID row = domain.ID ev ->
  entity.Message row = domain.Message (domain.Records ev) ->
  persisted ev (ECreate row err :: tr).
Proof.
  intros Hid Hmsg. exists row, err. split; [left; reflexivity | split; assumption].
Qed.

Lemma Processed_footprint event st r st' :
  Processed event st = (r, st') ->
  same_config (self st) (self st') /\
  closed (self st') = closed (self st) /\
  increments (trace st') = increments (trace st) /\
  emitted (trace st') = emitted (trace st) /\
  releases (trace st') = releases (trace st) + 1 /\
  wg (self st') = wg (self st) - 1 /\
  (persist_before_emit (trace st) -> persist_before_emit (trace st')) /\
  (forall ev, persisted ev (trace st) -> persisted ev (trace st')) /\
  match r with
  | Ok _ => 0 <= wg (self st')
  | Panic _ => True
  end.
Proof.
  run. intros H.
  repeat case_match; simplify_eq/=; unfold same_config; cbn;
    repeat split; try lia; try tauto;
    try (intros; repeat apply persisted_cons; assumption).
Qed.

Lemma Consume_poll_footprint st r st' :
  Consume_poll st = (r, st') ->
  self st' = self st /\
  increments (trace st') = increments (trace st) /\
  emitted (trace st') = emitted (trace st) /\
  releases (trace st') = releases (trace st) /\
  (persist_before_emit (trace st) -> persist_before_emit (trace st')) /\
  (forall ev, persisted ev (trace st) -> persisted ev (trace st')) /\
  (forall p, r <> Panic p).
Proof.
  run. intros H.
  repeat case_match; simplify_eq/=;
    repeat split; try lia; try tauto; try discriminate;
    try (intros; repeat apply persisted_cons; assumption).
Qed.

Lemma Processed_closed_polls event st :
  closed (self (snd (Processed event st))) = closed (self st) /\
  polls (trace (snd (Processed event st))) = polls (trace st).
Proof.
  run. repeat case_match; simplify_eq/=; auto.
Qed.

End Footprints.


Section Methods.

Context {World : Type}.
Variable json_Unmarshal : string -> domain.Events + error.
Variable time_Now : World -> string.

Implicit Types (st : @State World) (m : sqs.Message).

(** What the pipeline does on a message that decodes and has its pointers
    set: the whole final state, by the outcome of the upsert. *)
Lemma processMessage_decoded st m body records id retry :
  sqs.Body m = Some body ->
  json_Unmarshal body = inl records ->
  sqs.MessageId m = Some id ->
  retry_of m = Some retry ->
  0 <= wg (self st) ->
  let row := event_row id records (time_Now (world st)) in
  let logger := With (log (self st)) "retry" retry in
  let created := Create (db (self st)) row (world st) in
  exists st',
    processMessage json_Unmarshal time_Now (Some m) st
      = (Ok (Some (event_of (self st) m id retry records)), st') /\
    same_config (self st) (self st') /\
    closed (self st') = closed (self st) /\
    wg (self st') = wg (self st) + 1 /\
    world st' = match fst created with
                | Some _ => Rollback (db (self st)) (snd created)
                | None => snd created
                end /\
    trace st' =
      ELog Info logger "Event produced for ID = %s)" [id] :: EAdd 1 ::
      match fst created with
      | Some e => [ELog Info logger "error in insertMessage: %v" [e]; ERollback]
      | None => []
      end ++
      ECreate row (fst created) ::
      ELog Info logger "Start to process SQS event" [] :: trace st.
Proof.
  intros Hbody Hjson Hid Hretry Hwg row logger created.
  subst row logger created.
  unfold retry_of in Hretry.
  run. rewrite Hbody, Hjson.
  destruct (sqs.Attributes m !! _) as [val|]; simplify_eq/=;
    rewrite Hid; cbn;
    destruct (Create _ _ _) as [[e|] w1]; cbn;
    (destruct (Z.ltb_spec (wg (self st) + 1) 0); [lia|]);
    eexists; (split; [reflexivity|]); cbn; unfold same_config; cbn; tauto.
Qed.

(** A body that does not decode: one log line and nothing else. *)
Lemma processMessage_undecoded st m body err :
  sqs.Body m = Some body ->
  json_Unmarshal body = inr err ->
  processMessage json_Unmarshal time_Now (Some m) st =
    (Ok None,
     {| self := self st; world := world st;
        trace := ELog Error (log (self st))
                   "Error processing message from SQS: %v" [err] :: trace st |}).
Proof.
  intros Hbody Hjson. run. rewrite Hbody, Hjson. reflexivity.
Qed.

(** The footprint of the pipeline. *)
Lemma processMessage_footprint msg st r st' :
  processMessage json_Unmarshal time_Now msg st = (r, st') ->
  same_config (self st) (self st') /\
  closed (self st') = closed (self st) /\
  releases (trace st') = releases (trace st) /\
  emitted (trace st') = emitted (trace st) /\
  increments (trace st') - increments (trace st) = wg (self st') - wg (self st) /\
  (persist_before_emit (trace st) -> persist_before_emit (trace st')) /\
  (forall ev, persisted ev (trace st) -> persisted ev (trace st')) /\
  match r with
  | Ok (Some ev) => wg (self st') = wg (self st) + 1 /\ persisted ev (trace st')
  | Ok None => wg (self st') = wg (self st)
  | Panic _ => True
  end.
Proof.
  run. intros H.
  repeat case_match; simplify_eq/=; unfold same_config; cbn;
    repeat split; try lia; try tauto;
    try (intros; repeat apply persisted_cons; assumption);
    repeat (first [ apply persisted_here; reflexivity | apply persisted_cons ]).
Qed.

Lemma processMessage_polls msg st :
  polls (trace (snd (processMessage json_Unmarshal time_Now msg st)))
    = polls (trace st).
Proof.
  run. repeat case_match; simplify_eq/=; auto.
Qed.

End Methods.

(** ** Properties of a run of the consumer *)

Section Run.

Context {World : Type}.
Variable json_Unmarshal : string -> domain.Events + error.
Variable time_Now : World -> string.

Implicit Types (y : @System World).

Local Abbreviation step := (step json_Unmarshal time_Now).
Local Abbreviation reachable := (reachable json_Unmarshal time_Now).

Lemma reachable_trans y0 y1 y2 :
  reachable y0 y1 -> reachable y1 y2 -> reachable y0 y2.
Proof.
  intros H01 H12. induction H12 as [|l y y' _ IH Hstep]; [assumption|].
  eapply reachable_step; eassumption.
Qed.

Lemma invariant_start y0 : started y0 -> invariant y0.
Proof.
  intros (c & lg & n & d & w & Hy0).
  unfold Consume, fresh in Hy0. cbn in Hy0.
  destruct (n <? 0); [discriminate|]. injection Hy0 as <-.
  unfold invariant; cbn. repeat split; try lia; try tauto; try discriminate.
Qed.

Lemma invariant_step l y y' : invariant y -> step l y y' -> invariant y'.
Proof.
  unfold invariant.
  intros (Hbal & Hpbe & Hstaged & Hret & Halive) [Hlive Hstep].
  specialize (Halive Hlive). destruct Halive as (Hpos & Hinc & Hzero).
  destruct l; cbn [step_fn] in Hstep.
  - (* the goroutine of Consume *)
    unfold loop_step in Hstep.
    destruct (pc y) as [| |[|msg rest]|ev rest| | |] eqn:Hpc;
      cbv beta iota in Hstep.
    + injection Hstep as <-. destruct (closed (self (st y))); settle.
    + destruct (Consume_poll (st y)) as [r st1] eqn:Hpoll.
      apply Consume_poll_footprint in Hpoll
        as (Hself & Hi & He & Hr & Hp & Hper & Hnp).
      destruct r as [[msgs|]|p]; injection Hstep as <-;
        cbn [st pc crashed close_returned update crash];
        rewrite ?Hself, ?Hi, ?He, ?Hr; settle.
    + injection Hstep as <-. settle.
    + destruct (processMessage _ _ msg (st y)) as [r st1] eqn:Hpm.
      apply processMessage_footprint in Hpm
        as (Hcfg & Hcl & Hr & He & Hi & Hp & Hper & Hres).
      destruct r as [[ev|]|p]; injection Hstep as <-;
        cbn [st pc crashed close_returned update crash]; settle.
      intros ev' rest' [= <- <-]. tauto.
    + unfold chan_send in Hstep. destruct (_ <? _); [|discriminate].
      injection Hstep as <-. cbn. settle.
      eapply Hstaged; reflexivity.
    + unfold wg_Wait_ready in Hstep.
      destruct (Z.eqb_spec (wg (self (st y))) 0); [|discriminate].
      injection Hstep as <-. settle.
    + injection Hstep as <-. cbn. settle.
    + discriminate.
  - (* a reader takes an event *)
    destruct (out y); [discriminate|]. injection Hstep as <-. cbn. settle.
  - (* a sender meets a reader *)
    destruct (pc y) as [| | |ev rest| | |] eqn:Hpc; try discriminate.
    destruct (out y); [|discriminate]. injection Hstep as <-. cbn. settle.
    eapply Hstaged; reflexivity.
  - (* an acknowledgment *)
    destruct (Processed event (st y)) as [r st1] eqn:Hack.
    apply Processed_footprint in Hack
      as (Hcfg & Hcl & Hi & He & Hr & Hw & Hp & Hper & Hres).
    destruct r as [e|p]; injection Hstep as <-;
      cbn [st pc crashed close_returned update crash]; settle; eauto.
    intros Hb. specialize (Hzero Hb). lia.
  - (* Close is entered *)
    injection Hstep as <-. cbn. settle.
  - (* Close returns *)
    destruct (closing y); [discriminate|].
    destruct (wg_Wait_ready (st y)); [|discriminate].
    injection Hstep as <-. cbn. settle.
    intros r [<-|Hin]; [reflexivity | auto].
Qed.

Lemma invariant_reachable y0 y :
  started y0 -> reachable y0 y -> invariant y.
Proof.
  intros Hstart Hreach. induction Hreach as [|l y y' _ IH Hstep].
  - apply invariant_start, Hstart.
  - eapply invariant_step; eassumption.
Qed.

Lemma run_schedule_reachable ls y y' :
  run_schedule json_Unmarshal time_Now ls y = Some y' -> reachable y y'.
Proof.
  revert y. induction ls as [|l ls IH]; intros y Hrun; cbn in Hrun.
  - injection Hrun as <-. apply reachable_start.
  - destruct (crashed y) eqn:Hlive; [discriminate|].
    destruct (step_fn json_Unmarshal time_Now l y) as [y1|] eqn:Hstep;
      [|discriminate].
    eapply reachable_trans; [|apply IH; exact Hrun].
    eapply reachable_step; [apply reachable_start|]. split; eassumption.
Qed.

(** Only the goroutine of [Consume], at its poll, calls [GetMessages]. *)
Lemma step_polls l y y' :
  step l y y' ->
  polls (trace (st y')) = polls (trace (st y)) \/ (l = Loop /\ pc y = LPoll).
Proof.
  intros [Hlive Hstep]. destruct l; cbn [step_fn] in Hstep.
  - unfold loop_step in Hstep.
    destruct (pc y) as [| |[|msg rest]|ev rest| | |] eqn:Hpc;
      cbv beta iota in Hstep.
    + injection Hstep as <-. left. reflexivity.
    + right. auto.
    + injection Hstep as <-. left. reflexivity.
    + pose proof (processMessage_polls json_Unmarshal time_Now msg (st y))
        as Hp.
      destruct (processMessage _ _ msg (st y)) as [[[ev|]|p] st1];
        injection Hstep as <-; left; exact Hp.
    + unfold chan_send in Hstep. destruct (_ <? _); [|discriminate].
      injection Hstep as <-. left. reflexivity.
    + destruct (wg_Wait_ready (st y)); [|discriminate].
      injection Hstep as <-. left. reflexivity.
    + injection Hstep as <-. left. reflexivity.
    + discriminate.
  - destruct (out y); [discriminate|]. injection Hstep as <-. left. reflexivity.
  - destruct (pc y); try discriminate.
    destruct (out y); [|discriminate]. injection Hstep as <-. left. reflexivity.
  - pose proof (Processed_closed_polls event (st y)) as [_ Hp].
    destruct (Processed event (st y)) as [[e|p] st1];
      injection Hstep as <-; left; exact Hp.
  - injection Hstep as <-. left. reflexivity.
  - destruct (closing y); [discriminate|].
    destruct (wg_Wait_ready (st y)); [|discriminate].
    injection Hstep as <-. left. reflexivity.
Qed.

(** Once set, the flag [closed] stays set. *)
Lemma closed_step l y y' :
  step l y y' -> closed (self (st y)) = true -> closed (self (st y')) = true.
Proof.
  intros [Hlive Hstep] Hclosed. destruct l; cbn [step_fn] in Hstep.
  - unfold loop_step in Hstep.
    destruct (pc y) as [| |[|msg rest]|ev rest| | |] eqn:Hpc;
      cbv beta iota in Hstep.
    + injection Hstep as <-. exact Hclosed.
    + destruct (Consume_poll (st y)) as [r st1] eqn:Hpoll.
      apply Consume_poll_footprint in Hpoll as (Hself & _).
      destruct r as [[msgs|]|p]; injection Hstep as <-; cbn;
        rewrite Hself; exact Hclosed.
    + injection Hstep as <-. exact Hclosed.
    + destruct (processMessage _ _ msg (st y)) as [r st1] eqn:Hpm.
      apply processMessage_footprint in Hpm as (_ & Hcl & _).
      destruct r as [[ev|]|p]; injection Hstep as <-; cbn;
        rewrite Hcl; exact Hclosed.
    + unfold chan_send in Hstep. destruct (_ <? _); [|discriminate].
      injection Hstep as <-. exact Hclosed.
    + destruct (wg_Wait_ready (st y)); [|discriminate].
      injection Hstep as <-. exact Hclosed.
    + injection Hstep as <-. exact Hclosed.
    + discriminate.
  - destruct (out y); [discriminate|]. injection Hstep as <-. exact Hclosed.
  - destruct (pc y); try discriminate.
    destruct (out y); [|discriminate]. injection Hstep as <-. exact Hclosed.
  - pose proof (Processed_closed_polls event (st y)) as [Hcl _].
    destruct (Processed event (st y)) as [[e|p] st1];
      injection Hstep as <-; cbn; cbn in Hcl; rewrite Hcl; exact Hclosed.
  - injection Hstep as <-. reflexivity.
  - destruct (closing y); [discriminate|].
    destruct (wg_Wait_ready (st y)); [|discriminate].
    injection Hstep as <-. exact Hclosed.
Qed.

Lemma closed_reachable y y' :
  reachable y y' -> closed (self (st y)) = true ->
  closed (self (st y')) = true.
Proof.
  intros Hreach Hclosed. induction Hreach as [|l y1 y2 _ IH Hstep].
  - exact Hclosed.
  - eapply closed_step; eassumption.
Qed.

Lemma persist_before_emit_split tr :
  persist_before_emit tr ->
  forall later ev earlier,
    tr = later ++ ESend ev :: earlier -> persisted ev earlier.
Proof.
  induction tr as [|e tr IH]; intros Hpbe later ev earlier Heq.
  - destruct later; discriminate.
  - destruct later as [|e' later]; cbn in Heq.
    + injection Heq as -> ->. cbn in Hpbe. tauto.
    + injection Heq as -> ->.
      apply (IH (ltac:(destruct e'; cbn in Hpbe; tauto)) later ev earlier).
      reflexivity.
Qed.

End Run.

(** ** The per-message pipeline and the acknowledgment *)

Section Pipeline.

Context {World : Type}.
Variable json_Unmarshal : string -> domain.Events + error.
Variable time_Now : World -> string.

Implicit Types (st : @State World) (m : sqs.Message) (y : @System World).

Local Abbreviation processMessage := (processMessage json_Unmarshal time_Now).
Local Abbreviation loop_step := (loop_step json_Unmarshal time_Now).
Local Abbreviation receive_count :=
  sqs.MessageSystemAttributeNameApproximateReceiveCount.

(** C7: for a message that decodes, the event handed to the output stream
    carries in [Retry] the value of the approximate-receive-count attribute
    when the attribute is present, and "0" when it is absent. *)
Theorem processMessage_retry st m body records id :
  sqs.Body m = Some body ->
  json_Unmarshal body = inl records ->
  sqs.MessageId m = Some id ->
  0 <= wg (self st) ->
  (forall v, sqs.Attributes m !! receive_count = Some (Some v) ->
     exists ev st', processMessage (Some m) st = (Ok (Some ev), st') /\
                    domain.Retry ev = v) /\
  (sqs.Attributes m !! receive_count = None ->
     exists ev st', processMessage (Some m) st = (Ok (Some ev), st') /\
                    domain.Retry ev = "0").
Proof.
  intros Hbody Hjson Hid Hwg. split.
  - intros v Hattr.
    destruct (processMessage_decoded json_Unmarshal time_Now st m body records
                id v Hbody Hjson Hid) as (st' & Hrun & _); [|assumption|].
    + unfold retry_of. rewrite Hattr. reflexivity.
    + eexists _, st'. split; [exact Hrun | reflexivity].
  - intros Hattr.
    destruct (processMessage_decoded json_Unmarshal time_Now st m body records
                id "0" Hbody Hjson Hid) as (st' & Hrun & _); [|assumption|].
    + unfold retry_of. rewrite Hattr. reflexivity.
    + eexists _, st'. split; [exact Hrun | reflexivity].
Qed.

(** C10: the pipeline dereferences the body, the message identifier and the
    value of a present receive-count attribute unchecked.  When the body and
    the identifier are set and no present attribute holds a nil value, the
    nil-dereference panic cannot happen; a nil body, a nil value of the
    present attribute, or a nil identifier of a message that decodes, each
    panic. *)
Theorem processMessage_nil_dereference st m :
  (sqs.Body m <> None -> sqs.MessageId m <> None ->
   (forall k v, sqs.Attributes m !! k = Some v -> v <> None) ->
   fst (processMessage (Some m) st) <> Panic NilDereference) /\
  (sqs.Body m = None ->
   processMessage (Some m) st = (Panic NilDereference, st)) /\
  (forall body records,
     sqs.Body m = Some body -> json_Unmarshal body = inl records ->
     sqs.Attributes m !! receive_count = Some None ->
     processMessage (Some m) st = (Panic NilDereference, st)) /\
  (forall body records,
     sqs.Body m = Some body -> json_Unmarshal body = inl records ->
     sqs.Attributes m !! receive_count <> Some None ->
     sqs.MessageId m = None ->
     fst (processMessage (Some m) st) = Panic NilDereference).
Proof.
  repeat split.
  - intros Hbody Hid Hattrs. run.
    destruct (sqs.Body m) as [body|]; [|congruence].
    destruct (sqs.MessageId m) as [id|]; [|congruence].
    destruct (json_Unmarshal body) as [records|err]; cbn; [|discriminate].
    destruct (sqs.Attributes m !! _) as [[v|]|] eqn:Hattr; cbn;
      try (exfalso; eapply Hattrs; [exact Hattr | reflexivity]);
      destruct (Create _ _ _) as [[e|] w1]; cbn;
      destruct (_ <? 0); cbn; discriminate.
  - intros Hbody. run. rewrite Hbody. reflexivity.
  - intros body records Hbody Hjson Hattr. run.
    rewrite Hbody, Hjson, Hattr. reflexivity.
  - intros body records Hbody Hjson Hattr Hid. run.
    rewrite Hbody, Hjson, Hid.
    destruct (sqs.Attributes m !! _) as [[v|]|]; cbn;
      [reflexivity | congruence | reflexivity].
Qed.

(** C5: a message whose body does not decode is skipped: the pipeline
    returns without an event, the collaborators' world (database and queue)
    and the consumer (its counter) are as before, the only effect is the
    error log line, and the loop goes on with the rest of the batch. *)
Theorem decode_failure_skips_message y m rest body err :
  pc y = LBatch (Some m :: rest) ->
  sqs.Body m = Some body ->
  json_Unmarshal body = inr err ->
  let st' :=
    {| self := self (st y); world := world (st y);
       trace := ELog Error (log (self (st y)))
                  "Error processing message from SQS: %v" [err]
                :: trace (st y) |} in
  processMessage (Some m) (st y) = (Ok None, st') /\
  loop_step y = Some (update y st' (LBatch rest)) /\
  out (update y st' (LBatch rest)) = out y /\
  increments (trace st') = increments (trace (st y)) /\
  emitted (trace st') = emitted (trace (st y)).
Proof.
  intros Hpc Hbody Hjson st'.
  assert (Hrun : processMessage (Some m) (st y) = (Ok None, st'))
    by (apply processMessage_undecoded with (body := body); assumption).
  repeat split; try assumption; try reflexivity.
  unfold_loop. rewrite Hpc. cbv beta iota.
  fold processMessage. rewrite Hrun. reflexivity.
Qed.

(** C6: a failed upsert does not stop the pipeline.  The error is logged,
    the event is built all the same, the in-flight counter is incremented,
    the loop stages the event for the send, and the send puts it on the
    output channel as soon as the channel has room. *)
Theorem upsert_failure_is_not_fatal y m rest body records id retry e w1 :
  pc y = LBatch (Some m :: rest) ->
  sqs.Body m = Some body ->
  json_Unmarshal body = inl records ->
  sqs.MessageId m = Some id ->
  retry_of m = Some retry ->
  0 <= wg (self (st y)) ->
  Create (db (self (st y)))
    (event_row id records (time_Now (world (st y)))) (world (st y))
    = (Some e, w1) ->
  let ev := event_of (self (st y)) m id retry records in
  exists st1,
    processMessage (Some m) (st y) = (Ok (Some ev), st1) /\
    wg (self st1) = wg (self (st y)) + 1 /\
    In (ELog Info (With (log (self (st y))) "retry" retry)
          "error in insertMessage: %v" [e]) (trace st1) /\
    loop_step y = Some (update y st1 (LSend ev rest)) /\
    (Z.of_nat (length (out y)) < maxMessages (self (st y)) ->
     exists y2,
       loop_step (update y st1 (LSend ev rest)) = Some y2 /\
       out y2 = out y ++ [ev] /\
       pc y2 = LBatch rest /\
       trace (st y2) = ESend ev :: trace st1).
Proof.
  intros Hpc Hbody Hjson Hid Hretry Hwg Hcreate ev.
  destruct (processMessage_decoded json_Unmarshal time_Now (st y) m body
              records id retry Hbody Hjson Hid Hretry Hwg)
    as (st1 & Hrun & Hcfg & Hclosed & Hcount & Hworld & Htrace).
  rewrite Hcreate in Htrace. cbn [fst snd] in Htrace.
  exists st1. repeat split.
  - exact Hrun.
  - exact Hcount.
  - rewrite Htrace. cbn. auto.
  - unfold_loop. rewrite Hpc. cbv beta iota.
    fold processMessage. rewrite Hrun. reflexivity.
  - intros Hroom. destruct Hcfg as (_ & _ & Hmax & _).
    unfold_loop; unfold chan_send, update; cbn.
    rewrite Hmax.
    destruct (Z.ltb_spec (Z.of_nat (length (out y)))
                (maxMessages (self (st y)))); [|lia].
    eexists. repeat split.
Qed.

End Pipeline.

Section Acknowledgment.

Context {World : Type}.

Implicit Types (st : @State World) (ev : domain.Event).

(** C4: every call of [Processed] releases the in-flight counter exactly
    once, whatever its argument and whatever happens in its body; when the
    deletion of the original message fails, the error is logged and is the
    value returned to the caller. *)
Theorem Processed_always_releases event st :
  (wg (self (snd (Processed event st))) = wg (self st) - 1 /\
   releases (trace (snd (Processed event st))) = releases (trace st) + 1) /\
  (forall ev msg e w',
     event = Some ev ->
     domain.OriginalEvent ev = AnySqsMessage msg ->
     DeleteMessage (sqs (self st)) msg (world st) = (Some e, w') ->
     0 < wg (self st) ->
     fst (Processed event st) = Ok (Some e) /\
     world (snd (Processed event st)) = w' /\
     trace (snd (Processed event st)) =
       EDone :: ELog Error (domain.Log ev)
                  "error deleting of sqs message. %v" [e]
             :: EDeleteMessage msg (Some e) :: trace st).
Proof.
  split.
  - destruct (Processed event st) as [r st'] eqn:Hack.
    apply Processed_footprint in Hack. cbn [snd]. tauto.
  - intros ev msg e w' -> Horigin Hdelete Hwg. run.
    rewrite Horigin, Hdelete. cbn.
    destruct (Z.ltb_spec (wg (self st) - 1) 0); [lia|]. cbn. auto.
Qed.


(** C3 (as the code has it): acknowledging an event whose deletion succeeds
    removes the message from the queue and releases the counter exactly
    once; [Processed] has no guard against a second call, so a second
    acknowledgment of the same event releases the counter a second time,
    and panics when that makes the counter negative. *)
Theorem Processed_deletes_and_releases
    (pending : World -> list sqs.Message) st ev m w1 :
  deletes_by_handle pending (sqs (self st)) ->
  domain.OriginalEvent ev = AnySqsMessage (Some m) ->
  DeleteMessage (sqs (self st)) (Some m) (world st) = (None, w1) ->
  0 < wg (self st) ->
  exists st1,
    Processed (Some ev) st = (Ok None, st1) /\
    world st1 = w1 /\
    (forall x, In x (pending (world st1)) ->
               sqs.ReceiptHandle x <> sqs.ReceiptHandle m) /\
    wg (self st1) = wg (self st) - 1 /\
    releases (trace st1) = releases (trace st) + 1 /\
    wg (self (snd (Processed (Some ev) st1))) = wg (self st) - 2 /\
    releases (trace (snd (Processed (Some ev) st1)))
      = releases (trace st) + 2 /\
    (wg (self st) = 1 ->
     fst (Processed (Some ev) st1) = Panic NegativeCounter).
Proof.
  intros Hlaw Horigin Hdelete Hwg.
  destruct (Processed (Some ev) st) as [r st1] eqn:Hack.
  pose proof (Processed_footprint _ _ _ _ Hack)
    as (Hcfg & _ & _ & _ & Hrel & Hcount & _).
  assert (Hfirst : r = Ok None /\ world st1 = w1).
  { revert Hack. run. rewrite Horigin, Hdelete. cbn.
    destruct (Z.ltb_spec (wg (self st) - 1) 0); [lia|].
    intros [= <- <-]. auto. }
  destruct Hfirst as [-> Hworld].
  exists st1. split; [reflexivity|]. split; [exact Hworld|].
  split.
  { intros x Hin. specialize (Hlaw m (world st) None w1 Hdelete).
    cbn in Hlaw. rewrite Hworld, Hlaw in Hin.
    apply list_elem_of_In, list_elem_of_filter in Hin. tauto. }
  split; [exact Hcount|]. split; [exact Hrel|].
  destruct (Processed (Some ev) st1) as [r2 st2] eqn:Hack2.
  pose proof (Processed_footprint _ _ _ _ Hack2)
    as (_ & _ & _ & _ & Hrel2 & Hcount2 & _ & _ & Hres2).
  cbn [fst snd]. repeat split; try lia.
  intros Hone. destruct r2 as [r2|p]; [lia|].
  revert Hack2. run. rewrite Horigin.
  destruct (DeleteMessage (sqs (self st1)) (Some m) (world st1))
    as [[e2|] w2]; cbn;
    (destruct (Z.ltb_spec (wg (self st1) - 1) 0); [|lia]);
    intros Heq; congruence.
Qed.

End Acknowledgment.

(** ** The consume loop, the tracker and the shutdown *)

Section Discipline.

Context {World : Type}.
Variable json_Unmarshal : string -> domain.Events + error.
Variable time_Now : World -> string.

Implicit Types (y : @System World) (st : @State World).

Local Abbreviation step := (step json_Unmarshal time_Now).
Local Abbreviation reachable := (reachable json_Unmarshal time_Now).
Local Abbreviation processMessage := (processMessage json_Unmarshal time_Now).
Local Abbreviation loop_step := (loop_step json_Unmarshal time_Now).

(** C1: in every state of a run, the in-flight counter has been incremented
    once per event sent on the output channel (plus the one event counted
    and staged for a send in progress), the counter is the number of
    increments minus the number of releases, and a step that polls the
    queue is a step of the loop taken when the counter is zero, when as
    many releases as increments have happened. *)
Theorem tracker_balances_each_batch y0 y :
  started y0 -> reachable y0 y -> crashed y = None ->
  increments (trace (st y)) = emitted (trace (st y)) + staged (pc y) /\
  wg (self (st y)) = increments (trace (st y)) - releases (trace (st y)) /\
  (forall l y',
     step l y y' ->
     polls (trace (st y')) <> polls (trace (st y)) ->
     l = Loop /\
     wg (self (st y)) = 0 /\
     releases (trace (st y)) = increments (trace (st y)) /\
     emitted (trace (st y)) = increments (trace (st y))).
Proof.
  intros Hstart Hreach Hlive.
  destruct (invariant_reachable json_Unmarshal time_Now y0 y Hstart Hreach)
    as (Hbal & _ & _ & _ & Halive).
  destruct (Halive Hlive) as (Hpos & Hinc & Hzero).
  split; [exact Hinc|]. split; [exact Hbal|].
  intros l y' Hstep Hpolled.
  destruct (step_polls json_Unmarshal time_Now l y y' Hstep) as [|[-> Hpc]];
    [contradiction|].
  rewrite Hpc in Hinc, Hzero. cbn in Hinc, Hzero.
  specialize (Hzero eq_refl). repeat split; lia.
Qed.

(** C2: every event sent on the output channel has, earlier in the trace,
    the upsert of the record with its identifier and its message; and for a
    message that decodes, the pipeline attempts the upsert of the record
    keyed by the message identifier before it returns the event for the
    send. *)
Theorem record_persisted_before_event_emitted :
  (forall y0 y,
     started y0 -> reachable y0 y ->
     forall later ev earlier,
       trace (st y) = later ++ ESend ev :: earlier ->
       exists row err,
         In (ECreate row err) earlier /\
         entity.ID row = domain.ID ev /\
         entity.Message row = domain.Message (domain.Records ev)) /\
  (forall st m body records id retry,
     sqs.Body m = Some body ->
     json_Unmarshal body = inl records ->
     sqs.MessageId m = Some id ->
     retry_of m = Some retry ->
     0 <= wg (self st) ->
     exists ev st' err,
       processMessage (Some m) st = (Ok (Some ev), st') /\
       domain.ID ev = id /\
       In (ECreate (event_row id records (time_Now (world st))) err)
          (trace st') /\
       emitted (trace st') = emitted (trace st)).
Proof.
  split.
  - intros y0 y Hstart Hreach later ev earlier Heq.
    destruct (invariant_reachable json_Unmarshal time_Now y0 y Hstart Hreach)
      as (_ & Hpbe & _).
    eapply persist_before_emit_split; eassumption.
  - intros st m body records id retry Hbody Hjson Hid Hretry Hwg.
    destruct (processMessage_decoded json_Unmarshal time_Now st m body
                records id retry Hbody Hjson Hid Hretry Hwg)
      as (st' & Hrun & _ & _ & _ & _ & Htrace).
    eexists _, st', _. split; [exact Hrun|]. split; [reflexivity|].
    rewrite Htrace. split.
    + right. right. apply in_or_app. right. left. reflexivity.
    + cbn. destruct (fst (Create _ _ _)); reflexivity.
Qed.

(** C9 (as the code has it): [Close] sets the flag, after which the flag
    stays set and the loop, at the top of an iteration, leaves instead of
    polling; a blocked [Close] returns only when the counter is zero, that
    is when every increment made so far has been released, and it returns
    nil; on a consumer that is already closed and drained [Close] returns
    nil and changes nothing; while the counter is not zero [Close] stays
    blocked. *)
Theorem Close_waits_for_zero y0 y :
  started y0 -> reachable y0 y ->
  (forall y', step CloseCall y y' ->
     closed (self (st y')) = true /\
     wg (self (st y')) = wg (self (st y)) /\
     trace (st y') = trace (st y) /\ world (st y') = world (st y)) /\
  (forall y', step CloseReturn y y' ->
     wg (self (st y)) = 0 /\
     releases (trace (st y)) = increments (trace (st y)) /\
     close_returned y' = None :: close_returned y /\
     st y' = st y) /\
  (forall r, In r (close_returned y) -> r = None) /\
  (closed (self (st y)) = true ->
     forall y', reachable y y' -> closed (self (st y')) = true) /\
  (closed (self (st y)) = true -> pc y = LTop ->
     loop_step y = Some (update y (st y) LCloseOut)) /\
  (closed (self (st y)) = true -> wg (self (st y)) = 0 ->
     Close (st y) = Some (Ok None, st y)) /\
  (wg (self (st y)) <> 0 -> Close (st y) = None).
Proof.
  intros Hstart Hreach.
  destruct (invariant_reachable json_Unmarshal time_Now y0 y Hstart Hreach)
    as (Hbal & _ & _ & Hret & _).
  split; [|split; [|split; [|split; [|split; [|split]]]]].
  - intros y' [_ Hstep]. injection Hstep as <-. cbn. auto.
  - intros y' [_ Hstep]. cbn [step_fn] in Hstep.
    destruct (closing y); [discriminate|]. unfold wg_Wait_ready in Hstep.
    destruct (Z.eqb_spec (wg (self (st y))) 0) as [Hzero|]; [|discriminate].
    injection Hstep as <-. cbn. repeat split; try assumption; lia.
  - exact Hret.
  - intros Hclosed y' Hreach'.
    exact (closed_reachable json_Unmarshal time_Now y y' Hreach' Hclosed).
  - intros Hclosed Hpc. unfold_loop.
    rewrite Hpc, Hclosed. reflexivity.
  - intros Hclosed Hzero. clear Hbal. run. rewrite Hzero. cbn.
    destruct (st y) as [[c lg n cl d w] wo tr]. cbn in *. subst cl w.
    reflexivity.
  - intros Hnz. run.
    destruct (Z.eqb_spec (wg (self (st y))) 0); [contradiction|reflexivity].
Qed.

End Discipline.

(** ** The consumer on the concrete world *)

Lemma Demo_started : started Demo.y0.
Proof. exists Demo.client_sqs, Demo.logger, 10, Demo.client_db, Demo.world0. reflexivity. Qed.

Lemma Demo_after_reachable ls :
  run_schedule Demo.json_Unmarshal Demo.time_Now ls Demo.y0 = Some (Demo.after ls) ->
  reachable Demo.json_Unmarshal Demo.time_Now Demo.y0 (Demo.after ls).
Proof. apply run_schedule_reachable. Qed.

Lemma Demo_client_deletes_by_handle :
  deletes_by_handle Demo.pending Demo.client_sqs.
Proof.
  intros m w err w' Hdel. cbn in Hdel.
  destruct (Demo.sqs_outage w); injection Hdel as <- <-; reflexivity.
Qed.

Lemma processMessage_retry_witness :
  exists ev st',
    processMessage Demo.json_Unmarshal Demo.time_Now (Some Demo.m2) Demo.st0
      = (Ok (Some ev), st') /\
    domain.Retry ev = "4".
Proof.
  apply (proj1 (processMessage_retry Demo.json_Unmarshal Demo.time_Now
                  Demo.st0 Demo.m2 "{Message:b}"
                  {| domain.Message := "{Message:b}" |} "m2"
                  eq_refl eq_refl eq_refl ltac:(vm_compute; first [reflexivity | discriminate]))).
  vm_compute. reflexivity.
Defined.

Lemma processMessage_nil_dereference_witness :
  fst (processMessage Demo.json_Unmarshal Demo.time_Now (Some Demo.m1) Demo.st0)
    <> Panic NilDereference.
Proof.
  apply (proj1 (processMessage_nil_dereference Demo.json_Unmarshal
                  Demo.time_Now Demo.st0 Demo.m1)).
  - discriminate.
  - discriminate.
  - intros k v Hk. cbn in Hk. rewrite lookup_empty in Hk. discriminate.
Defined.

Lemma decode_failure_skips_message_witness :
  loop_step Demo.json_Unmarshal Demo.time_Now
    (update Demo.y0 Demo.st0 (LBatch [Some Demo.broken; Some Demo.m1]))
  = Some (update Demo.y0
            {| self := self Demo.st0; world := world Demo.st0;
               trace := [ELog Error Demo.logger
                           "Error processing message from SQS: %v"
                           ["invalid character looking for beginning of value"]] |}
            (LBatch [Some Demo.m1])).
Proof.
  apply (decode_failure_skips_message Demo.json_Unmarshal Demo.time_Now
           (update Demo.y0 Demo.st0 (LBatch [Some Demo.broken; Some Demo.m1]))
           Demo.broken [Some Demo.m1] "not json"
           "invalid character looking for beginning of value"
           eq_refl eq_refl eq_refl).
Defined.

Lemma upsert_failure_is_not_fatal_witness :
  exists st1,
    processMessage Demo.json_Unmarshal Demo.time_Now (Some Demo.m1)
      (Demo.in_flight 0 Demo.world_db_down) = (Ok (Some Demo.e1), st1) /\
    wg (self st1) = 1.
Proof.
  destruct (upsert_failure_is_not_fatal Demo.json_Unmarshal Demo.time_Now
              (update Demo.y0 (Demo.in_flight 0 Demo.world_db_down)
                 (LBatch [Some Demo.m1]))
              Demo.m1 [] "{Message:a}" {| domain.Message := "{Message:a}" |}
              "m1" "0" "connection refused" Demo.world_db_down
              eq_refl eq_refl eq_refl eq_refl eq_refl
              ltac:(vm_compute; first [reflexivity | discriminate]) eq_refl)
    as (st1 & Hrun & Hcount & _).
  exists st1. split; [exact Hrun | exact Hcount].
Defined.

Lemma Processed_always_releases_witness :
  fst (Processed (Some Demo.e1) (Demo.in_flight 1 Demo.world_sqs_down))
    = Ok (Some "request timeout").
Proof.
  apply (proj2 (Processed_always_releases (Some Demo.e1)
                  (Demo.in_flight 1 Demo.world_sqs_down))
           Demo.e1 (Some Demo.m1) "request timeout" Demo.world_sqs_down
           eq_refl eq_refl eq_refl ltac:(vm_compute; first [reflexivity | discriminate])).
Defined.


Lemma Processed_deletes_and_releases_witness :
  exists st1,
    Processed (Some Demo.e1) (Demo.in_flight 2 Demo.world0) = (Ok None, st1) /\
    wg (self st1) = 1 /\
    wg (self (snd (Processed (Some Demo.e1) st1))) = 0.
Proof.
  destruct (Processed_deletes_and_releases Demo.pending
              (Demo.in_flight 2 Demo.world0) Demo.e1 Demo.m1
              (snd (DeleteMessage Demo.client_sqs (Some Demo.m1) Demo.world0))
              Demo_client_deletes_by_handle eq_refl eq_refl
              ltac:(vm_compute; first [reflexivity | discriminate]))
    as (st1 & Hack & _ & _ & Hone & _ & Htwo & _).
  exists st1. split; [exact Hack|]. split; [exact Hone | exact Htwo].
Defined.

(** C3, the claim as stated fails: after the loop has sent the events of
    [m1] and [m2], acknowledging the first event twice releases the counter
    twice, from 2 to 1 and from 1 to 0, although the second event was never
    acknowledged. *)
Lemma Processed_second_ack_releases_again :
  reachable Demo.json_Unmarshal Demo.time_Now Demo.y0 Demo.both_sent /\
  emitted (trace (st Demo.both_sent)) = 2 /\
  wg (self (st Demo.both_sent)) = 2 /\
  fst (Processed (Some Demo.e1) (st Demo.both_sent)) = Ok None /\
  wg (self Demo.acked_once) = 1 /\
  fst (Processed (Some Demo.e1) Demo.acked_once) = Ok None /\
  wg (self Demo.acked_twice) = 0 /\
  wg (self Demo.acked_twice) <> wg (self Demo.acked_once).
Proof.
  split; [unfold Demo.both_sent; apply Demo_after_reachable; vm_compute;
          reflexivity|].
  vm_compute. repeat split; discriminate.
Qed.

Lemma tracker_balances_each_batch_witness :
  increments (trace (st Demo.both_sent))
    = emitted (trace (st Demo.both_sent)) + staged (pc Demo.both_sent) /\
  wg (self (st Demo.both_sent))
    = increments (trace (st Demo.both_sent))
      - releases (trace (st Demo.both_sent)).
Proof.
  destruct (tracker_balances_each_batch Demo.json_Unmarshal Demo.time_Now
              Demo.y0 Demo.both_sent Demo_started
              ltac:(apply Demo_after_reachable; vm_compute; reflexivity)
              ltac:(vm_compute; reflexivity))
    as (Hinc & Hbal & _).
  split; [exact Hinc | exact Hbal].
Defined.

Lemma record_persisted_before_event_emitted_witness :
  exists row err,
    In (ECreate row err) (tail (trace (st Demo.both_sent))) /\
    entity.ID row = domain.ID Demo.e2 /\
    entity.Message row = domain.Message (domain.Records Demo.e2).
Proof.
  apply (proj1 (record_persisted_before_event_emitted Demo.json_Unmarshal
                  Demo.time_Now)
           Demo.y0 Demo.both_sent Demo_started
           ltac:(apply Demo_after_reachable; vm_compute; reflexivity)
           [] Demo.e2 (tail (trace (st Demo.both_sent)))).
  vm_compute. reflexivity.
Defined.

(** C9, the claim as stated fails: [Close], called while the loop is between
    its test of [closed] and its poll, finds the counter at zero and returns
    nil at once; the loop then polls its final batch and sends an event, which
    is in flight and unacknowledged after [Close] has returned. *)
Lemma Close_returns_before_final_batch :
  reachable Demo.json_Unmarshal Demo.time_Now Demo.y0 Demo.closed_early /\
  crashed Demo.closed_early = None /\
  closed (self (st Demo.closed_early)) = true /\
  close_returned Demo.closed_early = [None] /\
  polls (trace (st Demo.closed_early)) = 1 /\
  emitted (trace (st Demo.closed_early)) = 1 /\
  releases (trace (st Demo.closed_early)) = 0 /\
  wg (self (st Demo.closed_early)) = 1.
Proof.
  split; [unfold Demo.closed_early; apply Demo_after_reachable; vm_compute;
          reflexivity|].
  vm_compute. repeat split.
Qed.

Lemma Close_waits_for_zero_witness :
  Close (st Demo.closed_early) = None.
Proof.
  apply (Close_waits_for_zero Demo.json_Unmarshal Demo.time_Now Demo.y0
           Demo.closed_early Demo_started
           ltac:(apply Demo_after_reachable; vm_compute; reflexivity)).
  vm_compute. discriminate.
Defined.
